(** * DecimalNumberMatcher (src/examples/decimal-number-matcher.js)

    A shallow embedding of the matcher class and of the two collaborators it
    calls: the [ValidationResult] accumulator and the [Decimal] constructor
    of the decimal.js package.

    JavaScript objects live in a small heap: the matcher instance ([this],
    with its [params] field) and the [ValidationResult] objects allocated so
    far, addressed by their index.  Every method of the class is a
    computation in the state monad [Js] over that heap, so that what a call
    reads, allocates and mutates is explicit. *)

From Stdlib Require Import ZArith Ascii String.
From stdpp Require Import base tactics option list.

Local Open Scope Z_scope.

(** ** JavaScript values *)

(** The argument of [match]: [null], [undefined] or a string (an 8-bit
    string stands for the JavaScript string with the same code units). *)
Inductive JsValue :=
  | JsNull
  | JsUndefined
  | JsString (str : string).

(** A JavaScript number as the matcher meets it: an integer or [NaN]. *)
Inductive JsNum :=
  | NaN
  | Num (z : Z).

(** [value != null]: loose inequality, false for [null] and [undefined]. *)
Definition isNotNull (value : JsValue) : bool :=
  match value with
  | JsNull | JsUndefined => false
  | JsString _ => true
  end.

(** [a > b] on operands that are a number or [undefined] ([None]):
    [undefined] converts to [NaN], and a comparison with [NaN] is false. *)
Definition js_gt (a b : option JsNum) : bool :=
  match a, b with
  | Some (Num x), Some (Num y) => y <? x
  | _, _ => false
  end.

(** [params[i]]: reading past the end of an array gives [undefined]. *)
Definition js_index (ps : list Z) (i : nat) : option JsNum :=
  Num <$> ps !! i.

(** ** The decimal library, as the matcher uses it (line 3)

    [Decimal_new v] is [new Decimal(v)], [None] when the constructor throws;
    [precision x z] is [x.precision(z)] and [decimalPlaces x] is
    [x.decimalPlaces()]. *)
Class DecimalLib := {
  Decimal : Type;
  Decimal_new : JsValue -> option Decimal;
  precision : Decimal -> bool -> JsNum;
  decimalPlaces : Decimal -> JsNum
}.

(** ** ValidationResult (./validation-result, line 4) *)

(** A recorded violation; the entries of [DoubleNumberErrors] (lines 8-21)
    have the same two fields. *)
Record Violation := { CODE : string; MESSAGE : string }.

(** Modelled from the spec: the class [ValidationResult] of
    ./validation-result is not among the sources.  The spec gives it as an
    accumulator that holds an ordered sequence of (code, message) records,
    empty when created, with one operation that appends a record. *)
Record ValidationResult := { errors : list Violation }.

Definition ValidationResult_new : ValidationResult := {| errors := [] |}.

Definition ValidationResult_add (code message : string)
    (r : ValidationResult) : ValidationResult :=
  {| errors := errors r ++ [ {| CODE := code; MESSAGE := message |} ] |}.

(** ** Constants (lines 6-21) *)

Definition DEFAULT_DIGIT_LIMIT : Z := 11.

Definition NOT_VALID : Violation :=
  {| CODE := "doubleNumber.e001";
     MESSAGE := "The value is not a valid decimal number." |}.

Definition EXCEEDED_MAX_NUMBER_OF_DIGITS : Violation :=
  {| CODE := "doubleNumber.e002";
     MESSAGE := "The value exceeded maximum number of digits." |}.

Definition EXCEEDED_MAX_NUMBER_OF_DECIMAL_PLACES : Violation :=
  {| CODE := "doubleNumber.e003";
     MESSAGE := "The value exceeded maximum number of decimal places." |}.

(** ** The heap and the monad of method bodies *)

(** The matcher object: its only field is [params] (constructor, line 38). *)
Record DecimalNumberMatcher := { params : list Z }.

Definition constructor (ps : list Z) : DecimalNumberMatcher :=
  {| params := ps |}.

(** A reference to a [ValidationResult] object. *)
Definition Ref := nat.

Record Heap := {
  this : DecimalNumberMatcher;
  results : list ValidationResult
}.

Definition Js (A : Type) : Type := Heap -> A * Heap.

#[global] Instance Js_ret : MRet Js := fun A (a : A) h => (a, h).

#[global] Instance Js_bind : MBind Js :=
  fun A B (f : A -> Js B) (m : Js A) h => let (a, h') := m h in f a h'.

(** [this.params] *)
Definition this_params : Js (list Z) :=
  fun h => (params (this h), h).

(** [new ValidationResult()]: a fresh object at the next free address. *)
Definition new_ValidationResult : Js Ref :=
  fun h => (length (results h),
            {| this := this h;
               results := results h ++ [ValidationResult_new] |}).

(** [result.addInvalidTypeError(CODE, MESSAGE)]: mutates the object that
    [result] refers to. *)
Definition addInvalidTypeError (result : Ref) (code message : string)
  : Js unit :=
  fun h => (tt,
            {| this := this h;
               results :=
                 alter (ValidationResult_add code message)
                       result (results h) |}).

(** ** The methods of DecimalNumberMatcher (lines 41-115) *)

Section Matcher.

Context {L : DecimalLib}.

(** Lines 105-107. *)
Definition validateParamsLength (len : nat) : Js bool :=
  ps ← this_params;
  mret (Nat.eqb (length ps) len).

(** Lines 113-115: [number?.precision(true) > maxNumberOfDigits]; the
    optional chain gives [undefined] on a [null] number. *)
Definition isExceededMaxNumberOfDigits
    (number : option Decimal) (maxNumberOfDigits : option JsNum) : bool :=
  js_gt ((fun x => precision x true) <$> number) maxNumberOfDigits.

(** Lines 109-111: [number?.decimalPlaces() > this.params[1]]. *)
Definition isExceededMaxNumberOfDecimalPlaces
    (number : option Decimal) : Js bool :=
  ps ← this_params;
  mret (js_gt (decimalPlaces <$> number) (js_index ps 1)).

(** Lines 93-97. *)
Definition validateMaxNumberOfDigits
    (number : option Decimal) (maxNumberOfDigits : option JsNum)
    (result : Ref) : Js unit :=
  if isExceededMaxNumberOfDigits number maxNumberOfDigits
  then addInvalidTypeError result
         (CODE EXCEEDED_MAX_NUMBER_OF_DIGITS)
         (MESSAGE EXCEEDED_MAX_NUMBER_OF_DIGITS)
  else mret tt.

(** Lines 99-103. *)
Definition validateMaxNumberOfDecimalPlaces
    (number : option Decimal) (result : Ref) : Js unit :=
  b ← isExceededMaxNumberOfDecimalPlaces number;
  if b : bool
  then addInvalidTypeError result
         (CODE EXCEEDED_MAX_NUMBER_OF_DECIMAL_PLACES)
         (MESSAGE EXCEEDED_MAX_NUMBER_OF_DECIMAL_PLACES)
  else mret tt.

(** Lines 82-91: the [catch] branch sets [number = null] and records
    NOT_VALID. *)
Definition convertToDecimal (value : JsValue) (result : Ref)
  : Js (option Decimal) :=
  match Decimal_new value with
  | Some number => mret (Some number)
  | None =>
      addInvalidTypeError result (CODE NOT_VALID) (MESSAGE NOT_VALID);;
      mret None
  end.

(** Lines 60-65. *)
Definition processNoParamInput (value : JsValue) (result : Ref) : Js Ref :=
  number ← convertToDecimal value result;
  validateMaxNumberOfDigits number (Some (Num DEFAULT_DIGIT_LIMIT)) result;;
  mret result.

(** Lines 67-72. *)
Definition processOneParamInput (value : JsValue) (result : Ref) : Js Ref :=
  number ← convertToDecimal value result;
  ps ← this_params;
  validateMaxNumberOfDigits number (js_index ps 0) result;;
  mret result.

(** Lines 74-80. *)
Definition processTwoParamsInput (value : JsValue) (result : Ref) : Js Ref :=
  number ← convertToDecimal value result;
  ps ← this_params;
  validateMaxNumberOfDigits number (js_index ps 0) result;;
  validateMaxNumberOfDecimalPlaces number result;;
  mret result.

(** Lines 41-58.  The method returns [result] from inside one of the three
    arity branches only; falling off the end of the body returns
    [undefined], which is [None] here. *)
Definition match_ (value : JsValue) : Js (option Ref) :=
  result ← new_ValidationResult;
  if isNotNull value then
    b0 ← validateParamsLength 0;
    if b0 : bool then r ← processNoParamInput value result; mret (Some r)
    else
      b1 ← validateParamsLength 1;
      if b1 : bool then r ← processOneParamInput value result; mret (Some r)
      else
        b2 ← validateParamsLength 2;
        if b2 : bool then r ← processTwoParamsInput value result; mret (Some r)
        else mret None
  else mret None.

End Matcher.

(** ** What a call of [match] hands back *)

(** The object a call returned, read in the heap the call left:
    [None] when the call returned [undefined]. *)
Definition outcome (p : option Ref * Heap) : option ValidationResult :=
  match p.1 with
  | Some r => results p.2 !! r
  | None => None
  end.

(** The violations a call reported: those of the returned object, none
    when nothing was returned. *)
Definition violations (p : option Ref * Heap) : list Violation :=
  match outcome p with
  | Some r => errors r
  | None => []
  end.

(** The bound the total-digit check of a configuration compares against:
    the default for no parameter, the first parameter otherwise. *)
Definition maxTotalDigits (ps : list Z) : option JsNum :=
  match ps with
  | [] => Some (Num DEFAULT_DIGIT_LIMIT)
  | p :: _ => Some (Num p)
  end.

(** A heap holding a matcher built with [new DecimalNumberMatcher(...ps)]
    beside the objects [objs]. *)
Definition heapOf (ps : list Z) (objs : list ValidationResult) : Heap :=
  {| this := constructor ps; results := objs |}.

(** ** decimal.js

    The package is a dependency of the repository ([require], line 3), not
    part of it.  This module follows its documented behaviour for the three
    entry points the matcher calls.  decimal.js stores the significant
    digits of a value in a word array [d] (most significant first, no
    leading or trailing zero digit, [[0]] for zero, [null] for a non-finite
    value) beside the sign [s] and the decimal exponent [e] of the first
    digit; here [d] is the list of those decimal digits. *)
Module DecimalJs.

Record Decimal := {
  s : JsNum;
  e : JsNum;
  d : option (list Z)
}.

(** [Decimal.maxE] and [Decimal.minE] as the package sets them (9e15);
    the matcher never reconfigures them. *)
Definition EXP_LIMIT : Z := 9000000000000000.
Definition maxE : Z := EXP_LIMIT.
Definition minE : Z := - EXP_LIMIT.

Definition isDigit (c : ascii) : bool :=
  (48 <=? nat_of_ascii c)%nat && (nat_of_ascii c <=? 57)%nat.

Definition isZero (c : ascii) : bool := Ascii.eqb c "0".

Definition digitValue (c : ascii) : Z := Z.of_nat (nat_of_ascii c) - 48.

(** The longest prefix of digits, and what follows it. *)
Fixpoint spanDigits (l : list ascii) : list ascii * list ascii :=
  match l with
  | c :: r =>
      if isDigit c
      then let (ds, rest) := spanDigits r in (c :: ds, rest)
      else ([], l)
  | [] => ([], [])
  end.

Fixpoint stripLeadingZeros (l : list ascii) : list ascii :=
  match l with
  | c :: r => if isZero c then stripLeadingZeros r else l
  | [] => []
  end.

Fixpoint stripTrailingZeros (l : list ascii) : list ascii :=
  match l with
  | c :: r =>
      match stripTrailingZeros r with
      | [] => if isZero c then [] else [c]
      | r' => c :: r'
      end
  | [] => []
  end.

(** [+str] on a run of digits. *)
Definition digitsToZ (ds : list ascii) : Z :=
  fold_left (fun n c => 10 * n + digitValue c) ds 0.

(** The parts of a text accepted by the pattern [isDecimal]: digits with
    an optional point and further digits, or a point and digits; then an
    optional exponent, the letter e (either case), an optional sign and
    digits. *)
Record Literal := {
  intDigits : list ascii;
  fracDigits : list ascii;
  exponent : Z
}.

(** The optional exponent part, up to the end of the text. *)
Definition matchExponent (r : list ascii) : option Z :=
  match r with
  | [] => Some 0
  | c :: r' =>
      if Ascii.eqb c "e" || Ascii.eqb c "E" then
        let '(sgn, ds) :=
          match r' with
          | c' :: t =>
              if Ascii.eqb c' "-" then (-1, t)
              else if Ascii.eqb c' "+" then (1, t)
              else (1, r')
          | [] => (1, r')
          end in
        match spanDigits ds with
        | ([], _) => None
        | (ed, []) => Some (sgn * digitsToZ ed)
        | (_, _ :: _) => None
        end
      else None
  end.

Definition matchDecimal (v : list ascii) : option Literal :=
  let (ip, r1) := spanDigits v in
  match r1 with
  | c :: r =>
      if Ascii.eqb c "." then
        let (fp, r2) := spanDigits r in
        match ip, fp with
        | [], [] => None
        | _, _ =>
            ex ← matchExponent r2;
            Some {| intDigits := ip; fracDigits := fp; exponent := ex |}
        end
      else
        match ip with
        | [] => None
        | _ =>
            ex ← matchExponent r1;
            Some {| intDigits := ip; fracDigits := []; exponent := ex |}
        end
  | [] =>
      match ip with
      | [] => None
      | _ => Some {| intDigits := ip; fracDigits := []; exponent := 0 |}
      end
  end.

(** [parseDecimal(x, str)]: drop the point, add the written exponent to the
    position of the point, strip leading and trailing zeros, and check the
    exponent of the first digit against the limits (overflow gives
    Infinity, underflow zero). *)
Definition parseDecimal (sign : Z) (lit : Literal) : Decimal :=
  let str := intDigits lit ++ fracDigits lit in
  let e0 := Z.of_nat (length (intDigits lit)) + exponent lit in
  let lead := stripLeadingZeros str in
  let i := Z.of_nat (length str) - Z.of_nat (length lead) in
  match stripTrailingZeros lead with
  | [] => {| s := Num sign; e := Num 0; d := Some [0] |}
  | ds =>
      let e1 := e0 - i - 1 in
      if maxE <? e1 then {| s := Num sign; e := NaN; d := None |}
      else if e1 <? minE then {| s := Num sign; e := Num 0; d := Some [0] |}
      else {| s := Num sign; e := Num e1; d := Some (digitValue <$> ds) |}
  end.

Section Constructor.

(** [parseOther(x, str)], the constructor's path for a text that is not a
    decimal literal: the names Infinity and NaN, literals with a radix
    prefix, and an error for anything else.  It is left open here. *)
Variable parseOther : Z -> string -> option Decimal.

(** [new Decimal(v)] for the values the matcher passes: a leading sign is
    taken off a string, then the text is a decimal literal or goes to
    [parseOther]; an argument that is neither a number nor a string is an
    invalid argument. *)
Definition Decimal_new (v : JsValue) : option Decimal :=
  match v with
  | JsString str =>
      let cs := list_ascii_of_string str in
      let '(sign, body) :=
        match cs with
        | c :: t =>
            if Ascii.eqb c "-" then (-1, t)
            else if Ascii.eqb c "+" then (1, t)
            else (1, cs)
        | [] => (1, cs)
        end in
      match matchDecimal body with
      | Some lit => Some (parseDecimal sign lit)
      | None => parseOther sign (string_of_list_ascii body)
      end
  | JsNull | JsUndefined => None
  end.

End Constructor.

(** [getPrecision(x.d)]: the number of decimal digits held in [d]. *)
Definition getPrecision (digits : list Z) : Z := Z.of_nat (length digits).

(** [x.precision(z)]: with [z] true, trailing zeros of the integer part
    count, so the result is at least [e + 1]. *)
Definition precision (x : Decimal) (z : bool) : JsNum :=
  match d x with
  | Some ds =>
      let k := getPrecision ds in
      match e x with
      | Num ex => if z && (k <? ex + 1) then Num (ex + 1) else Num k
      | NaN => Num k
      end
  | None => NaN
  end.

(** [x.decimalPlaces()]: the digits of [d] that lie right of the point. *)
Definition decimalPlaces (x : Decimal) : JsNum :=
  match d x with
  | Some ds =>
      match e x with
      | Num ex => Num (Z.max 0 (getPrecision ds - ex - 1))
      | NaN => NaN
      end
  | None => NaN
  end.

(** The part of [parseOther] that names the two non-finite values; every
    other text is rejected, so it stands for [parseOther] only on texts
    without a radix prefix or an underscore. *)
Definition parseOther_nonfinite (sign : Z) (str : string) : option Decimal :=
  if String.eqb str "Infinity" then
    Some {| s := Num sign; e := NaN; d := None |}
  else if String.eqb str "NaN" then
    Some {| s := NaN; e := NaN; d := None |}
  else None.

(** *** Plain decimal notation *)

Inductive Sign := NoSign | Plus | Minus.

Definition signText (sg : Sign) : list ascii :=
  match sg with
  | NoSign => []
  | Plus => ["+"%char]
  | Minus => ["-"%char]
  end.

(** The sign [new Decimal] stores for it. *)
Definition signValue (sg : Sign) : Z :=
  match sg with Minus => -1 | NoSign | Plus => 1 end.

(** The text after the sign: [ip] or [ip . fp]. *)
Definition plainBody (ip : list ascii) (frac : option (list ascii))
  : list ascii :=
  ip ++ match frac with Some fp => "."%char :: fp | None => [] end.

(** The text [sign ip] or [sign ip . fp]. *)
Definition plainText (sg : Sign) (ip : list ascii)
    (frac : option (list ascii)) : string :=
  string_of_list_ascii (signText sg ++ plainBody ip frac).

Definition fracOf (frac : option (list ascii)) : list ascii :=
  default [] frac.

(** [ip] and the fraction are runs of digits, and one of them is not
    empty. *)
Definition isPlain (ip : list ascii) (frac : option (list ascii)) : bool :=
  forallb isDigit ip && forallb isDigit (fracOf frac) &&
  negb (Nat.eqb (length ip + length (fracOf frac)) 0).

(** The total digit count of [ip . fp] as [precision(true)] gives it: the
    digits from the first non-zero digit on, up to the last non-zero digit
    of the fraction or else up to the units digit.  Leading zeros and
    trailing zeros of the fraction do not count, trailing zeros of the
    integer part do; zero has one digit. *)
Definition totalDigits (ip fp : list ascii) : Z :=
  match stripLeadingZeros ip with
  | [] =>
      match stripTrailingZeros (stripLeadingZeros fp) with
      | [] => 1
      | ds => Z.of_nat (length ds)
      end
  | ip' => Z.of_nat (length ip' + length (stripTrailingZeros fp))
  end.

(** The digit count in which neither leading nor trailing zeros count:
    what is left of the digits of [ip . fp] once both are removed. *)
Definition significantDigits (ip fp : list ascii) : Z :=
  Z.of_nat (length (stripTrailingZeros (stripLeadingZeros (ip ++ fp)))).

(** The digits right of the point once trailing zeros are dropped. *)
Definition fractionalDigits (fp : list ascii) : Z :=
  Z.of_nat (length (stripTrailingZeros fp)).

End DecimalJs.

(** decimal.js as an instance of the interface. *)
Definition decimal_js
    (parseOther : Z -> string -> option DecimalJs.Decimal) : DecimalLib :=
  {| Decimal := DecimalJs.Decimal;
     Decimal_new := DecimalJs.Decimal_new parseOther;
     precision := DecimalJs.precision;
     decimalPlaces := DecimalJs.decimalPlaces |}.

(** decimal.js with the part of [parseOther] that is modelled. *)
Definition decimal_js_nonfinite : DecimalLib :=
  decimal_js DecimalJs.parseOther_nonfinite.

(** ** The outcome of [match] in closed form *)

(** The heap in the middle of a call: the matcher [t], the objects [objs]
    that were there before, and the accumulator [r] of this call at
    address [length objs]. *)
Definition midCall (t : DecimalNumberMatcher) (objs : list ValidationResult)
    (r : ValidationResult) : Heap :=
  {| this := t; results := objs ++ [r] |}.

Definition record (v : Violation) (r : ValidationResult) : ValidationResult :=
  ValidationResult_add (CODE v) (MESSAGE v) r.

(** The heap [h] with the object at address [r] replaced by [acc]. *)
Definition store (r : Ref) (acc : ValidationResult) (h : Heap) : Heap :=
  {| this := this h; results := <[r := acc]> (results h) |}.

(** The accumulator [acc] with the violations [vs] appended. *)
Definition extend (acc : ValidationResult) (vs : list Violation)
  : ValidationResult :=
  {| errors := errors acc ++ vs |}.

Section Verdict.

Context {L : DecimalLib}.

(** The violations the three variants record for a non-null value under
    parameters [ps], in the order the method bodies append them. *)
Definition verdict (ps : list Z) (value : JsValue) : list Violation :=
  match Decimal_new value with
  | None => [NOT_VALID]
  | Some number =>
      (if js_gt (Some (precision number true)) (maxTotalDigits ps)
       then [EXCEEDED_MAX_NUMBER_OF_DIGITS] else []) ++
      (if Nat.eqb (length ps) 2 &&
          js_gt (Some (decimalPlaces number)) (js_index ps 1)
       then [EXCEEDED_MAX_NUMBER_OF_DECIMAL_PLACES] else [])
  end.

(** Whether a call returns an object at all: the value is not null and
    one of the three arity branches is taken. *)
Definition returns (ps : list Z) (value : JsValue) : bool :=
  isNotNull value && (length ps <=? 2)%nat.

End Verdict.

(** * Properties *)

Lemma alter_fresh {A} (f : A -> A) (l : list A) (x : A) :
  alter f (length l) (l ++ [x]) = l ++ [f x].
Proof.
  rewrite <- (Nat.add_0_r (length l)), alter_app_r. reflexivity.
Qed.

Lemma lookup_fresh {A} (l : list A) (x : A) :
  (l ++ [x]) !! length l = Some x.
Proof. by apply list_lookup_middle. Qed.

Section MatcherFacts.

Context {L : DecimalLib}.

Lemma new_ValidationResult_run h :
  new_ValidationResult h =
  (length (results h), midCall (this h) (results h) ValidationResult_new).
Proof. reflexivity. Qed.

Lemma addInvalidTypeError_run v t objs r :
  addInvalidTypeError (length objs) (CODE v) (MESSAGE v) (midCall t objs r) =
  (tt, midCall t objs (record v r)).
Proof.
  unfold addInvalidTypeError, midCall; cbn [this results].
  by rewrite alter_fresh.
Qed.

Lemma validateParamsLength_run len h :
  validateParamsLength len h = (Nat.eqb (length (params (this h))) len, h).
Proof. reflexivity. Qed.

Lemma convertToDecimal_run value t objs r :
  convertToDecimal value (length objs) (midCall t objs r) =
  (Decimal_new value,
   midCall t objs
     (if Decimal_new value is Some _ then r else record NOT_VALID r)).
Proof.
  unfold convertToDecimal. destruct (Decimal_new value); [reflexivity|].
  unfold mbind, Js_bind. by rewrite addInvalidTypeError_run.
Qed.

Lemma validateMaxNumberOfDigits_run number bound t objs r :
  validateMaxNumberOfDigits number bound (length objs) (midCall t objs r) =
  (tt, midCall t objs
         (if isExceededMaxNumberOfDigits number bound
          then record EXCEEDED_MAX_NUMBER_OF_DIGITS r else r)).
Proof.
  unfold validateMaxNumberOfDigits.
  destruct (isExceededMaxNumberOfDigits number bound); [|reflexivity].
  apply addInvalidTypeError_run.
Qed.

Lemma isExceededMaxNumberOfDecimalPlaces_run number h :
  isExceededMaxNumberOfDecimalPlaces number h =
  (js_gt (decimalPlaces <$> number) (js_index (params (this h)) 1), h).
Proof. reflexivity. Qed.

Lemma validateMaxNumberOfDecimalPlaces_run number t objs r :
  validateMaxNumberOfDecimalPlaces number (length objs) (midCall t objs r) =
  (tt, midCall t objs
         (if js_gt (decimalPlaces <$> number) (js_index (params t) 1)
          then record EXCEEDED_MAX_NUMBER_OF_DECIMAL_PLACES r else r)).
Proof.
  unfold validateMaxNumberOfDecimalPlaces, mbind, Js_bind.
  rewrite isExceededMaxNumberOfDecimalPlaces_run. cbn [midCall this].
  destruct (js_gt _ _); [|reflexivity].
  apply addInvalidTypeError_run.
Qed.

Lemma processNoParamInput_run value t objs r :
  processNoParamInput value (length objs) (midCall t objs r) =
  let r1 := if Decimal_new value is Some _ then r else record NOT_VALID r in
  (length objs,
   midCall t objs
     (if isExceededMaxNumberOfDigits (Decimal_new value)
           (Some (Num DEFAULT_DIGIT_LIMIT))
      then record EXCEEDED_MAX_NUMBER_OF_DIGITS r1 else r1)).
Proof.
  unfold processNoParamInput, mbind, Js_bind.
  rewrite convertToDecimal_run, validateMaxNumberOfDigits_run.
  reflexivity.
Qed.

Lemma processOneParamInput_run value t objs r :
  processOneParamInput value (length objs) (midCall t objs r) =
  let r1 := if Decimal_new value is Some _ then r else record NOT_VALID r in
  (length objs,
   midCall t objs
     (if isExceededMaxNumberOfDigits (Decimal_new value)
           (js_index (params t) 0)
      then record EXCEEDED_MAX_NUMBER_OF_DIGITS r1 else r1)).
Proof.
  unfold processOneParamInput, mbind, Js_bind.
  rewrite convertToDecimal_run. unfold this_params; cbn [midCall this].
  fold (midCall t objs
          (if Decimal_new value is Some _ then r else record NOT_VALID r)).
  rewrite validateMaxNumberOfDigits_run. reflexivity.
Qed.

Lemma processTwoParamsInput_run value t objs r :
  processTwoParamsInput value (length objs) (midCall t objs r) =
  let r1 := if Decimal_new value is Some _ then r else record NOT_VALID r in
  let r2 := if isExceededMaxNumberOfDigits (Decimal_new value)
                 (js_index (params t) 0)
            then record EXCEEDED_MAX_NUMBER_OF_DIGITS r1 else r1 in
  (length objs,
   midCall t objs
     (if js_gt (decimalPlaces <$> Decimal_new value) (js_index (params t) 1)
      then record EXCEEDED_MAX_NUMBER_OF_DECIMAL_PLACES r2 else r2)).
Proof.
  unfold processTwoParamsInput, mbind, Js_bind.
  rewrite convertToDecimal_run. unfold this_params; cbn [midCall this].
  fold (midCall t objs
          (if Decimal_new value is Some _ then r else record NOT_VALID r)).
  rewrite validateMaxNumberOfDigits_run, validateMaxNumberOfDecimalPlaces_run.
  reflexivity.
Qed.

(** A call allocates one object and, when it returns, returns that object
    holding exactly [verdict]; nothing else in the heap changes. *)
Lemma match_run (value : JsValue) (h : Heap) :
  match_ value h =
  if returns (params (this h)) value
  then (Some (length (results h)),
        midCall (this h) (results h)
          {| errors := verdict (params (this h)) value |})
  else (None, midCall (this h) (results h) ValidationResult_new).
Proof.
  unfold match_, mbind, Js_bind. rewrite new_ValidationResult_run.
  destruct h as [[ps] objs]; cbn [this results params].
  unfold returns, verdict.
  destruct (isNotNull value); [|reflexivity]. cbn [andb].
  rewrite !validateParamsLength_run; cbn [midCall this params].
  fold (midCall {| params := ps |} objs ValidationResult_new).
  destruct ps as [|p0 [|p1 [|p2 ps]]]; cbn [length Nat.eqb Nat.leb].
  - rewrite processNoParamInput_run. unfold isExceededMaxNumberOfDigits.
    destruct (Decimal_new value) as [number|]; cbn - [js_gt]; [|reflexivity].
    by destruct (js_gt _ _).
  - rewrite !validateParamsLength_run; cbn [midCall this params length Nat.eqb].
    fold (midCall {| params := [p0] |} objs ValidationResult_new).
    rewrite processOneParamInput_run. unfold isExceededMaxNumberOfDigits.
    destruct (Decimal_new value) as [number|]; cbn - [js_gt]; [|reflexivity].
    by destruct (js_gt _ _).
  - rewrite !validateParamsLength_run; cbn [midCall this params length Nat.eqb].
    rewrite !validateParamsLength_run; cbn [midCall this params length Nat.eqb].
    fold (midCall {| params := [p0; p1] |} objs ValidationResult_new).
    rewrite processTwoParamsInput_run. unfold isExceededMaxNumberOfDigits.
    destruct (Decimal_new value) as [number|]; cbn - [js_gt]; [|reflexivity].
    by do 2 destruct (js_gt _ _).
  - rewrite !validateParamsLength_run; cbn [midCall this params length Nat.eqb].
    rewrite !validateParamsLength_run; cbn [midCall this params length Nat.eqb].
    reflexivity.
Qed.

Lemma outcome_match (value : JsValue) (h : Heap) :
  outcome (match_ value h) =
  if returns (params (this h)) value
  then Some {| errors := verdict (params (this h)) value |}
  else None.
Proof.
  rewrite match_run. unfold outcome.
  destruct (returns _ _); cbn [fst snd midCall results]; [|reflexivity].
  apply lookup_fresh.
Qed.

Lemma violations_match (value : JsValue) (h : Heap) :
  violations (match_ value h) =
  if returns (params (this h)) value
  then verdict (params (this h)) value
  else [].
Proof.
  unfold violations. rewrite outcome_match. by destruct (returns _ _).
Qed.

Lemma returns_true (ps : list Z) (value : JsValue) :
  isNotNull value = true -> (length ps <= 2)%nat -> returns ps value = true.
Proof.
  intros Hv Hps. unfold returns. rewrite Hv. cbn [andb].
  by apply Nat.leb_le.
Qed.

Lemma returns_false_arity (ps : list Z) (value : JsValue) :
  (2 < length ps)%nat -> returns ps value = false.
Proof.
  intros Hps. unfold returns. apply andb_false_iff. right.
  by apply Nat.leb_gt.
Qed.

(** The decimal-places violation is reported exactly by the two-parameter
    variant, when [decimalPlaces()] exceeds the second parameter. *)
Lemma decimal_places_iff (value : JsValue) (h : Heap) (number : Decimal) :
  isNotNull value = true ->
  Decimal_new value = Some number ->
  In EXCEEDED_MAX_NUMBER_OF_DECIMAL_PLACES (violations (match_ value h)) <->
  length (params (this h)) = 2%nat /\
  js_gt (Some (decimalPlaces number)) (js_index (params (this h)) 1) = true.
Proof.
  intros Hv Hnew. rewrite violations_match.
  destruct (le_lt_dec (length (params (this h))) 2) as [Hle|Hgt].
  - rewrite (returns_true _ _ Hv Hle). unfold verdict. rewrite Hnew.
    destruct (Nat.eqb_spec (length (params (this h))) 2) as [Heq|Hne];
      cbn [andb].
    + destruct (js_gt (Some (decimalPlaces number)) _).
      * split; [by intros _|intros _]. apply in_or_app. right. by left.
      * split; [|by intros [_ ?]].
        intros Hin. apply in_app_or in Hin as [Hin|[]].
        destruct (js_gt _ _); [|done].
        destruct Hin as [Heq'|[]]. discriminate Heq'.
    + split; [|by intros [? _]].
      intros Hin. apply in_app_or in Hin as [Hin|[]].
      destruct (js_gt _ _); [|done].
      destruct Hin as [Heq'|[]]. discriminate Heq'.
  - rewrite (returns_false_arity _ _ Hgt).
    split; [intros []|intros [? _]; lia].
Qed.

(** The total-digit violation is reported exactly by the three variants,
    when [precision(true)] exceeds the applicable maximum. *)
Lemma total_digits_iff (value : JsValue) (h : Heap) (number : Decimal) :
  isNotNull value = true ->
  Decimal_new value = Some number ->
  In EXCEEDED_MAX_NUMBER_OF_DIGITS (violations (match_ value h)) <->
  (length (params (this h)) <= 2)%nat /\
  js_gt (Some (precision number true))
        (maxTotalDigits (params (this h))) = true.
Proof.
  intros Hv Hnew. rewrite violations_match.
  destruct (le_lt_dec (length (params (this h))) 2) as [Hle|Hgt].
  - rewrite (returns_true _ _ Hv Hle). unfold verdict. rewrite Hnew.
    destruct (js_gt (Some (precision number true)) _).
    + split; [by intros _|intros _; by left].
    + split; [|by intros [_ ?]].
      intros Hin. apply in_app_or in Hin as [[]|Hin].
      destruct (_ && _); [|done].
      destruct Hin as [Heq|[]]. discriminate Heq.
  - rewrite (returns_false_arity _ _ Hgt).
    split; [intros []|intros [? _]; lia].
Qed.

End MatcherFacts.

(** ** decimal.js on plain decimal notation *)

Section DecimalJsFacts.

Import DecimalJs.

Lemma stripLeadingZeros_app (a b : list ascii) :
  stripLeadingZeros (a ++ b) =
  match stripLeadingZeros a with
  | [] => stripLeadingZeros b
  | a' => a' ++ b
  end.
Proof.
  induction a as [|c a IH]; [reflexivity|].
  cbn [app stripLeadingZeros]. by destruct (isZero c).
Qed.

Lemma stripTrailingZeros_app (a b : list ascii) :
  stripTrailingZeros (a ++ b) =
  match stripTrailingZeros b with
  | [] => stripTrailingZeros a
  | b' => a ++ b'
  end.
Proof.
  induction a as [|c a IH]; cbn [app stripTrailingZeros].
  - by destruct (stripTrailingZeros b).
  - rewrite IH. destruct (stripTrailingZeros b); [reflexivity|].
    by destruct a.
Qed.

Lemma length_stripLeadingZeros (l : list ascii) :
  (length (stripLeadingZeros l) <= length l)%nat.
Proof.
  induction l as [|c l IH]; cbn [stripLeadingZeros length]; [lia|].
  destruct (isZero c); cbn [length]; lia.
Qed.

Lemma length_stripTrailingZeros (l : list ascii) :
  (length (stripTrailingZeros l) <= length l)%nat.
Proof.
  induction l as [|c l IH]; cbn [stripTrailingZeros length]; [lia|].
  destruct (stripTrailingZeros l); [destruct (isZero c)|]; cbn [length] in *; lia.
Qed.

(** What is left after the leading zeros starts with a non-zero digit. *)
Lemma stripLeadingZeros_head (l : list ascii) c r :
  stripLeadingZeros l = c :: r -> isZero c = false.
Proof.
  induction l as [|c' l IH]; cbn [stripLeadingZeros]; [done|].
  destruct (isZero c') eqn:Hc; [done|]. congruence.
Qed.

Lemma stripTrailingZeros_nonzero_head c (r : list ascii) :
  isZero c = false -> stripTrailingZeros (c :: r) <> [].
Proof.
  intros Hc. cbn [stripTrailingZeros].
  destruct (stripTrailingZeros r); [by rewrite Hc|done].
Qed.

(** A run without a significant digit is all zeros either way round. *)
Lemma stripTrailingZeros_of_lead_nil (l : list ascii) :
  stripTrailingZeros (stripLeadingZeros l) = [] -> stripTrailingZeros l = [].
Proof.
  induction l as [|c l IH]; cbn [stripLeadingZeros]; [done|].
  destruct (isZero c) eqn:Hc.
  - intros H. cbn [stripTrailingZeros]. by rewrite (IH H), Hc.
  - intros H. by apply stripTrailingZeros_nonzero_head in H.
Qed.

(** Stripping the leading zeros leaves the trailing zeros as they are. *)
Lemma trailing_zeros_of_lead (l : list ascii) :
  stripTrailingZeros (stripLeadingZeros l) <> [] ->
  (length l + length (stripTrailingZeros (stripLeadingZeros l)) =
   length (stripLeadingZeros l) + length (stripTrailingZeros l))%nat.
Proof.
  induction l as [|c l IH]; cbn [stripLeadingZeros]; [done|].
  destruct (isZero c) eqn:Hc; [|lia].
  intros H. specialize (IH H). cbn [stripTrailingZeros].
  destruct (stripTrailingZeros l) eqn:Hl.
  - exfalso. apply H. clear IH H.
    induction l as [|c' l IHl]; [done|].
    cbn [stripTrailingZeros] in Hl. cbn [stripLeadingZeros].
    destruct (stripTrailingZeros l); [|done].
    destruct (isZero c'); [by apply IHl|done].
  - cbn [length] in *. lia.
Qed.

Ltac split_ltb :=
  repeat match goal with
    | |- context [?a <? ?b] =>
        destruct (Z.ltb_spec a b);
        try (exfalso; unfold maxE, minE, EXP_LIMIT in *; lia)
    end.

Ltac finish_plain :=
  cbn [app length] in *; rewrite ?length_app; cbn [length];
  split_ltb;
  unfold precision, decimalPlaces, getPrecision; cbn [d e andb];
  rewrite ?length_fmap; cbn [length]; rewrite ?length_app; cbn [length];
  split_ltb; split; f_equal; lia.

Lemma parseDecimal_plain (sign : Z) (ip fp : list ascii) :
  Z.of_nat (length ip + length fp) <= EXP_LIMIT ->
  let x := parseDecimal sign
             {| intDigits := ip; fracDigits := fp; exponent := 0 |} in
  precision x true = Num (totalDigits ip fp) /\
  decimalPlaces x = Num (fractionalDigits fp).
Proof.
  intros Hlen. unfold parseDecimal, totalDigits, fractionalDigits.
  cbn [intDigits fracDigits exponent].
  rewrite stripLeadingZeros_app, length_app.
  pose proof (length_stripLeadingZeros ip) as Hip.
  pose proof (length_stripLeadingZeros fp) as Hfp.
  pose proof (length_stripTrailingZeros fp) as Hfp'.
  destruct (stripLeadingZeros ip) as [|c ip'] eqn:Eip.
  - destruct (stripTrailingZeros (stripLeadingZeros fp)) as [|c ds] eqn:Ecore.
    + rewrite (stripTrailingZeros_of_lead_nil fp Ecore). by cbn.
    + assert (Hne : stripTrailingZeros (stripLeadingZeros fp) <> [])
        by (by rewrite Ecore).
      pose proof (trailing_zeros_of_lead fp Hne) as Htz.
      pose proof (length_stripTrailingZeros (stripLeadingZeros fp)) as Hcore.
      rewrite Ecore in Htz, Hcore. finish_plain.
  - pose proof (stripLeadingZeros_head ip c ip' Eip) as Hc.
    pose proof (stripTrailingZeros_nonzero_head c ip' Hc) as Hne.
    pose proof (length_stripTrailingZeros (c :: ip')) as Hcore.
    rewrite stripTrailingZeros_app.
    destruct (stripTrailingZeros fp) as [|c' fp'] eqn:Efp.
    + destruct (stripTrailingZeros (c :: ip')) as [|c1 ds] eqn:Ecore; [done|].
      finish_plain.
    + finish_plain.
Qed.

Lemma isDigit_not_mark (c : ascii) :
  isDigit c = true ->
  Ascii.eqb c "-" = false /\ Ascii.eqb c "+" = false /\
  Ascii.eqb c "." = false.
Proof.
  intros Hc. repeat split.
  - destruct (Ascii.eqb_spec c "-") as [->|]; [discriminate Hc|reflexivity].
  - destruct (Ascii.eqb_spec c "+") as [->|]; [discriminate Hc|reflexivity].
  - destruct (Ascii.eqb_spec c ".") as [->|]; [discriminate Hc|reflexivity].
Qed.

Lemma spanDigits_app (ds rest : list ascii) :
  forallb isDigit ds = true ->
  spanDigits rest = ([], rest) ->
  spanDigits (ds ++ rest) = (ds, rest).
Proof.
  intros Hds Hrest. induction ds as [|c ds IH]; [done|].
  cbn [forallb] in Hds. apply andb_true_iff in Hds as [Hc Hds].
  cbn [app spanDigits]. by rewrite Hc, (IH Hds).
Qed.

Lemma spanDigits_all (ds : list ascii) :
  forallb isDigit ds = true -> spanDigits ds = (ds, []).
Proof.
  intros Hds. rewrite <- (app_nil_r ds) at 1. by apply spanDigits_app.
Qed.

Lemma matchDecimal_plain (ip : list ascii) (frac : option (list ascii)) :
  isPlain ip frac = true ->
  matchDecimal (plainBody ip frac) =
  Some {| intDigits := ip; fracDigits := fracOf frac; exponent := 0 |}.
Proof.
  unfold isPlain, plainBody, matchDecimal.
  intros [[Hip Hfp]%andb_true_iff Hne%negb_true_iff]%andb_true_iff.
  apply Nat.eqb_neq in Hne.
  destruct frac as [fp|]; cbn [fracOf default] in *.
  - rewrite (spanDigits_app ip _ Hip) by reflexivity.
    cbn [Ascii.eqb Bool.eqb]. rewrite (spanDigits_all fp Hfp).
    destruct ip, fp; cbn [length] in *; done.
  - rewrite app_nil_r, (spanDigits_all ip Hip).
    destruct ip; cbn [length] in *; done.
Qed.

Lemma Decimal_new_plain parseOther sg ip frac :
  isPlain ip frac = true ->
  Decimal_new parseOther (JsString (plainText sg ip frac)) =
  Some (parseDecimal (signValue sg)
          {| intDigits := ip; fracDigits := fracOf frac; exponent := 0 |}).
Proof.
  intros Hplain. unfold Decimal_new, plainText.
  rewrite list_ascii_of_string_of_list_ascii.
  destruct sg; cbn [signText app signValue].
  - pose proof (matchDecimal_plain ip frac Hplain) as Hm.
    destruct (plainBody ip frac) as [|c t] eqn:Hbody; [by rewrite Hm|].
    assert (Hc : Ascii.eqb c "-" = false /\ Ascii.eqb c "+" = false).
    { unfold isPlain in Hplain. unfold plainBody in Hbody.
      apply andb_true_iff in Hplain as [[Hip _]%andb_true_iff _].
      destruct ip as [|c0 ip]; cbn [app] in Hbody.
      - destruct frac; [|done]. injection Hbody as <- _. done.
      - injection Hbody as <- _. cbn [forallb] in Hip.
        apply andb_true_iff in Hip as [Hc0 _].
        by destruct (isDigit_not_mark c0 Hc0) as (? & ? & _). }
    destruct Hc as [-> ->]. by rewrite Hm.
  - cbn [Ascii.eqb Bool.eqb]. by rewrite matchDecimal_plain.
  - cbn [Ascii.eqb Bool.eqb]. by rewrite matchDecimal_plain.
Qed.

End DecimalJsFacts.

(** * The claims *)

(** C1 (as amended).  In the zero-, one- and two-parameter variants, and
    for every value the constructor parses, [match] reports
    EXCEEDED_MAX_NUMBER_OF_DIGITS if and only if [precision(true)] of the
    parsed number exceeds the applicable maximum (11 without parameters,
    the first parameter otherwise); with more parameters nothing is
    reported.  For a text in plain decimal notation under decimal.js that
    count is [totalDigits]: the sign, leading zeros and trailing zeros of
    the fraction are not counted, trailing zeros of the integer part
    are. *)
Theorem total_digits_violation :
  (forall (L : DecimalLib) (value : JsValue) (h : Heap) (number : Decimal),
      isNotNull value = true ->
      Decimal_new value = Some number ->
      In EXCEEDED_MAX_NUMBER_OF_DIGITS (violations (match_ value h)) <->
      (length (params (this h)) <= 2)%nat /\
      js_gt (Some (precision number true))
            (maxTotalDigits (params (this h))) = true)
  /\
  (forall parseOther sg ip frac (h : Heap),
      DecimalJs.isPlain ip frac = true ->
      Z.of_nat (length ip + length (DecimalJs.fracOf frac))
        <= DecimalJs.EXP_LIMIT ->
      In EXCEEDED_MAX_NUMBER_OF_DIGITS
         (violations
            (@match_ (decimal_js parseOther)
               (JsString (DecimalJs.plainText sg ip frac)) h)) <->
      (length (params (this h)) <= 2)%nat /\
      js_gt (Some (Num (DecimalJs.totalDigits ip (DecimalJs.fracOf frac))))
            (maxTotalDigits (params (this h))) = true).
Proof.
  split; [intros L value h number; apply total_digits_iff|].
  intros parseOther sg ip frac h Hplain Hlen.
  pose proof (Decimal_new_plain parseOther sg ip frac Hplain) as Hnew.
  pose proof (parseDecimal_plain (DecimalJs.signValue sg) ip
                (DecimalJs.fracOf frac) Hlen) as [Hprec _].
  rewrite <- Hprec.
  apply (@total_digits_iff (decimal_js parseOther)); [reflexivity|exact Hnew].
Qed.

Lemma total_digits_violation_witness :
  In EXCEEDED_MAX_NUMBER_OF_DIGITS
     (violations
        (@match_ decimal_js_nonfinite (JsString "1.5e3") (heapOf [3] []))) /\
  In EXCEEDED_MAX_NUMBER_OF_DIGITS
     (violations
        (@match_ decimal_js_nonfinite
           (JsString
              (DecimalJs.plainText DecimalJs.Minus
                 ["0"; "1"; "2"; "0"]%char (Some ["5"; "0"]%char)))
           (heapOf [3; 1] []))).
Proof.
  split.
  - apply <- (proj1 total_digits_violation decimal_js_nonfinite
                (JsString "1.5e3") (heapOf [3] []) _ eq_refl eq_refl).
    split; [cbn; lia|reflexivity].
  - apply <- (proj2 total_digits_violation DecimalJs.parseOther_nonfinite
                DecimalJs.Minus ["0"; "1"; "2"; "0"]%char
                (Some ["5"; "0"]%char) (heapOf [3; 1] []) eq_refl).
    + split; [cbn; lia|reflexivity].
    + vm_compute. discriminate.
Defined.

(** C1, as stated, fails in two places.  With one parameter 2 the value
    "100" is reported although only one of its digits is left once leading
    and trailing zeros are removed; with three parameters the value "12"
    is not reported although it has two digits and the first parameter
    is 1. *)
Lemma total_digits_counterexample :
  (In EXCEEDED_MAX_NUMBER_OF_DIGITS
      (violations
         (@match_ decimal_js_nonfinite (JsString "100") (heapOf [2] []))) /\
   DecimalJs.significantDigits ["1"; "0"; "0"]%char [] = 1 /\
   js_gt (Some (Num 1)) (maxTotalDigits [2]) = false)
  /\
  (violations
     (@match_ decimal_js_nonfinite (JsString "12") (heapOf [1; 1; 1] []))
   = [] /\
   DecimalJs.significantDigits ["1"; "2"]%char [] = 2 /\
   js_gt (Some (Num 2)) (maxTotalDigits [1; 1; 1]) = true).
Proof.
  split; (split; [|split]); try reflexivity.
  vm_compute. by left.
Qed.

(** C2.  For a value that parses, [match] reports
    EXCEEDED_MAX_NUMBER_OF_DECIMAL_PLACES if and only if the matcher has
    exactly two parameters and [decimalPlaces()] of the parsed number
    exceeds the second one; so the zero- and one-parameter variants never
    report it. *)
Theorem decimal_places_violation
    (L : DecimalLib) (value : JsValue) (h : Heap) (number : Decimal) :
  isNotNull value = true ->
  Decimal_new value = Some number ->
  In EXCEEDED_MAX_NUMBER_OF_DECIMAL_PLACES (violations (match_ value h)) <->
  length (params (this h)) = 2%nat /\
  js_gt (Some (decimalPlaces number)) (js_index (params (this h)) 1) = true.
Proof. apply decimal_places_iff. Qed.

Lemma decimal_places_violation_witness :
  In EXCEEDED_MAX_NUMBER_OF_DECIMAL_PLACES
     (violations
        (@match_ decimal_js_nonfinite (JsString "1.234") (heapOf [6; 2] [])))
  /\
  ~ In EXCEEDED_MAX_NUMBER_OF_DECIMAL_PLACES
      (violations
         (@match_ decimal_js_nonfinite (JsString "1.234") (heapOf [6] []))).
Proof.
  split.
  - apply <- (decimal_places_violation decimal_js_nonfinite
                (JsString "1.234") (heapOf [6; 2] []) _ eq_refl eq_refl).
    split; reflexivity.
  - intros Hin.
    apply (decimal_places_violation decimal_js_nonfinite
             (JsString "1.234") (heapOf [6] []) _ eq_refl eq_refl) in Hin.
    destruct Hin as [Hlen _]. discriminate Hlen.
Defined.

(** C3 (as amended).  In the zero-, one- and two-parameter variants, a
    non-null value that the constructor rejects yields an outcome with
    exactly one violation, NOT_VALID; both digit-count queries answer
    false on the absent number. *)
Theorem unparseable_value_not_valid
    (L : DecimalLib) (value : JsValue) (h : Heap) :
  isNotNull value = true ->
  Decimal_new value = None ->
  (length (params (this h)) <= 2)%nat ->
  outcome (match_ value h) = Some {| errors := [NOT_VALID] |} /\
  (forall bound, isExceededMaxNumberOfDigits None bound = false) /\
  (forall h', (isExceededMaxNumberOfDecimalPlaces None h').1 = false).
Proof.
  intros Hv Hnew Hle. split; [|split; reflexivity].
  rewrite outcome_match, (returns_true _ _ Hv Hle).
  unfold verdict. by rewrite Hnew.
Qed.

Lemma unparseable_value_not_valid_witness :
  outcome (@match_ decimal_js_nonfinite (JsString "abc") (heapOf [3; 1] []))
  = Some {| errors := [NOT_VALID] |}.
Proof.
  apply (unparseable_value_not_valid decimal_js_nonfinite
           (JsString "abc") (heapOf [3; 1] [])).
  - reflexivity.
  - reflexivity.
  - cbn. lia.
Defined.

(** C3, as stated, fails for a matcher with three parameters: the text
    "abc" does not parse, and the call returns nothing instead of an
    outcome with one NOT_VALID violation. *)
Lemma unparseable_value_counterexample :
  @Decimal_new decimal_js_nonfinite (JsString "abc") = None /\
  outcome
    (@match_ decimal_js_nonfinite (JsString "abc") (heapOf [1; 2; 3] []))
  = None /\
  violations
    (@match_ decimal_js_nonfinite (JsString "abc") (heapOf [1; 2; 3] []))
  = [].
Proof. repeat split. Qed.

(** C4 (what the code does).  For [null] and for [undefined], [match]
    returns [undefined]: the accumulator it created is left in the heap,
    empty, and no outcome object reaches the caller. *)
Theorem absent_value_returns_undefined (L : DecimalLib) (h : Heap) :
  match_ JsNull h =
    (None, midCall (this h) (results h) ValidationResult_new) /\
  match_ JsUndefined h =
    (None, midCall (this h) (results h) ValidationResult_new) /\
  outcome (match_ JsNull h) = None /\
  outcome (match_ JsUndefined h) = None.
Proof.
  rewrite !outcome_match, !match_run. unfold returns. cbn [isNotNull andb].
  repeat split.
Qed.

(** C5.  With two parameters and a value that parses, the total-digit
    check and the decimal-places check each compare their own count with
    their own bound, and each appends its own violation; for the
    parameters (3, 1) and the value "12.34", of four digits and two
    decimal places, both violations are reported, once each. *)
Theorem two_params_checks_independent :
  (forall (L : DecimalLib) (value : JsValue) (h : Heap) (p0 p1 : Z)
          (number : Decimal),
      isNotNull value = true ->
      params (this h) = [p0; p1] ->
      Decimal_new value = Some number ->
      violations (match_ value h) =
      (if js_gt (Some (precision number true)) (Some (Num p0))
       then [EXCEEDED_MAX_NUMBER_OF_DIGITS] else []) ++
      (if js_gt (Some (decimalPlaces number)) (Some (Num p1))
       then [EXCEEDED_MAX_NUMBER_OF_DECIMAL_PLACES] else []))
  /\
  (forall (L : DecimalLib) (h : Heap) (number : Decimal),
      params (this h) = [3; 1] ->
      Decimal_new (JsString "12.34") = Some number ->
      precision number true = Num 4 ->
      decimalPlaces number = Num 2 ->
      violations (match_ (JsString "12.34") h) =
      [EXCEEDED_MAX_NUMBER_OF_DIGITS; EXCEEDED_MAX_NUMBER_OF_DECIMAL_PLACES]).
Proof.
  assert (Hgen : forall (L : DecimalLib) value h p0 p1 number,
      isNotNull value = true ->
      params (this h) = [p0; p1] ->
      Decimal_new value = Some number ->
      violations (match_ value h) =
      (if js_gt (Some (precision number true)) (Some (Num p0))
       then [EXCEEDED_MAX_NUMBER_OF_DIGITS] else []) ++
      (if js_gt (Some (decimalPlaces number)) (Some (Num p1))
       then [EXCEEDED_MAX_NUMBER_OF_DECIMAL_PLACES] else [])).
  { intros L value h p0 p1 number Hv Hps Hnew.
    rewrite violations_match, Hps, returns_true by (done || (cbn; lia)).
    unfold verdict. by rewrite Hnew. }
  split; [exact Hgen|].
  intros L h number Hps Hnew Hprec Hdp.
  rewrite (Hgen L (JsString "12.34") h 3 1 number eq_refl Hps Hnew),
    Hprec, Hdp.
  reflexivity.
Qed.

Lemma two_params_checks_independent_witness :
  violations
    (@match_ decimal_js_nonfinite (JsString "12.34") (heapOf [3; 1] []))
  = [EXCEEDED_MAX_NUMBER_OF_DIGITS; EXCEEDED_MAX_NUMBER_OF_DECIMAL_PLACES]
  /\
  violations
    (@match_ decimal_js_nonfinite (JsString "1.234") (heapOf [6; 2] []))
  = [EXCEEDED_MAX_NUMBER_OF_DECIMAL_PLACES].
Proof.
  split.
  - apply (proj2 two_params_checks_independent decimal_js_nonfinite
             (heapOf [3; 1] []) _ eq_refl eq_refl); reflexivity.
  - apply (proj1 two_params_checks_independent decimal_js_nonfinite
             (JsString "1.234") (heapOf [6; 2] []) 6 2 _
             eq_refl eq_refl eq_refl).
Defined.

(** C6.  For every value, [match] on a matcher without parameters and
    [match] on a matcher whose one parameter is the default limit, 11,
    return the same reference and leave the same objects: the outcomes
    are identical. *)
Theorem no_param_is_default_limit
    (L : DecimalLib) (value : JsValue) (objs : list ValidationResult) :
  DEFAULT_DIGIT_LIMIT = 11 /\
  (match_ value (heapOf [] objs)).1 = (match_ value (heapOf [11] objs)).1 /\
  results (match_ value (heapOf [] objs)).2 =
    results (match_ value (heapOf [11] objs)).2 /\
  outcome (match_ value (heapOf [] objs)) =
    outcome (match_ value (heapOf [11] objs)).
Proof.
  rewrite !outcome_match, !match_run.
  cbn [heapOf this params constructor results].
  unfold returns, verdict. cbn [length Nat.leb Nat.eqb andb maxTotalDigits].
  destruct (isNotNull value); cbn [andb fst snd midCall results];
    repeat split.
Qed.

(** C7.  For a non-null value and a matcher with more than two
    parameters (a length other than 0, 1 or 2), [match] returns
    [undefined]; the accumulator it created stays empty, and the matcher
    and every other object are as before. *)
Theorem unsupported_arity_no_result
    (L : DecimalLib) (value : JsValue) (h : Heap) :
  isNotNull value = true ->
  (2 < length (params (this h)))%nat ->
  match_ value h =
    (None, midCall (this h) (results h) ValidationResult_new) /\
  violations (match_ value h) = [].
Proof.
  intros _ Hgt.
  by rewrite violations_match, match_run, (returns_false_arity _ _ Hgt).
Qed.

Lemma unsupported_arity_no_result_witness :
  @match_ decimal_js_nonfinite (JsString "123456789012")
    (heapOf [1; 2; 3] [])
  = (None, midCall (constructor [1; 2; 3]) [] ValidationResult_new) /\
  violations
    (@match_ decimal_js_nonfinite (JsString "123456789012")
       (heapOf [1; 2; 3] []))
  = [].
Proof.
  apply (unsupported_arity_no_result decimal_js_nonfinite
           (JsString "123456789012") (heapOf [1; 2; 3] [])).
  - reflexivity.
  - cbn. lia.
Defined.

(** C8.  Calling [match] a second time with the same value, on the heap
    the first call left, gives an outcome identical to the first, and the
    object the first call returned still holds what it held. *)
Theorem match_repeatable (L : DecimalLib) (value : JsValue) (h : Heap) :
  let first := match_ value h in
  let second := match_ value first.2 in
  outcome second = outcome first /\
  outcome (first.1, second.2) = outcome first /\
  violations second = violations first.
Proof.
  cbn zeta. unfold violations.
  rewrite !outcome_match. unfold outcome. rewrite !match_run.
  destruct (returns (params (this h)) value) eqn:Hret;
    cbn [fst snd midCall this results]; rewrite ?Hret;
    cbn [fst snd midCall this results]; [|done].
  repeat split.
  rewrite lookup_app_l by (rewrite length_app; cbn; lia).
  apply lookup_fresh.
Qed.

(** C9.  A call of [match] leaves the matcher, and with it [params],
    unchanged; it leaves every object that existed before unchanged; the
    only change to the heap is the one accumulator it allocates, which is
    the object it returns when it returns one. *)
Theorem match_frame (L : DecimalLib) (value : JsValue) (h : Heap) :
  this (match_ value h).2 = this h /\
  params (this (match_ value h).2) = params (this h) /\
  (exists r, results (match_ value h).2 = results h ++ [r]) /\
  ((match_ value h).1 = None \/
   (match_ value h).1 = Some (length (results h))).
Proof.
  rewrite match_run.
  destruct (returns _ _); cbn [fst snd midCall this results]; eauto 6.
Qed.

(** C10.  The violations of an outcome stand in one fixed order:
    NOT_VALID first, EXCEEDED_MAX_NUMBER_OF_DIGITS next,
    EXCEEDED_MAX_NUMBER_OF_DECIMAL_PLACES last, each present or not; in
    particular a total-digit violation stands before a decimal-places
    violation whenever both are there. *)
Theorem violations_in_fixed_order
    (L : DecimalLib) (value : JsValue) (h : Heap) :
  (exists b1 b2 b3 : bool,
      violations (match_ value h) =
      (if b1 then [NOT_VALID] else []) ++
      (if b2 then [EXCEEDED_MAX_NUMBER_OF_DIGITS] else []) ++
      (if b3 then [EXCEEDED_MAX_NUMBER_OF_DECIMAL_PLACES] else [])) /\
  (forall i j : nat,
      violations (match_ value h) !! i = Some EXCEEDED_MAX_NUMBER_OF_DIGITS ->
      violations (match_ value h) !! j
        = Some EXCEEDED_MAX_NUMBER_OF_DECIMAL_PLACES ->
      (i < j)%nat).
Proof.
  rewrite violations_match. unfold verdict.
  destruct (returns _ _).
  2: { split; [by exists false, false, false|]. intros i j Hi. done. }
  destruct (Decimal_new value) as [number|].
  2: { split; [by exists true, false, false|].
       intros [|i] j Hi; [discriminate Hi|done]. }
  destruct (js_gt (Some (precision number true)) _),
           (Nat.eqb (length (params (this h))) 2 && js_gt _ _).
  - split; [by exists false, true, true|].
    intros [|[|i]] [|[|j]] Hi Hj; try discriminate; try done. lia.
  - split; [by exists false, true, false|].
    intros [|i] [|j] Hi Hj; try discriminate; done.
  - split; [by exists false, false, true|].
    intros [|i] [|j] Hi Hj; try discriminate; done.
  - split; [by exists false, false, false|]. intros i j Hi. done.
Qed.

Lemma violations_in_fixed_order_witness :
  violations
    (@match_ decimal_js_nonfinite (JsString "12.34") (heapOf [3; 1] [])) !! 0%nat
    = Some EXCEEDED_MAX_NUMBER_OF_DIGITS /\
  violations
    (@match_ decimal_js_nonfinite (JsString "12.34") (heapOf [3; 1] [])) !! 1%nat
    = Some EXCEEDED_MAX_NUMBER_OF_DECIMAL_PLACES /\
  (0 < 1)%nat.
Proof.
  split; [reflexivity|split; [reflexivity|]].
  apply (proj2 (violations_in_fixed_order decimal_js_nonfinite
                  (JsString "12.34") (heapOf [3; 1] [])));
    reflexivity.
Defined.

(** * Further properties *)

(** X1.  For a text in plain decimal notation under decimal.js,
    [decimalPlaces()] is the number of digits right of the point once the
    trailing zeros are dropped, zero for a whole number; so the
    decimal-places violation is reported exactly when the matcher has two
    parameters and that number exceeds the second. *)
Theorem decimal_places_of_plain_text
    parseOther sg ip frac (h : Heap) :
  DecimalJs.isPlain ip frac = true ->
  Z.of_nat (length ip + length (DecimalJs.fracOf frac))
    <= DecimalJs.EXP_LIMIT ->
  In EXCEEDED_MAX_NUMBER_OF_DECIMAL_PLACES
     (violations
        (@match_ (decimal_js parseOther)
           (JsString (DecimalJs.plainText sg ip frac)) h)) <->
  length (params (this h)) = 2%nat /\
  js_gt (Some (Num (DecimalJs.fractionalDigits (DecimalJs.fracOf frac))))
        (js_index (params (this h)) 1) = true.
Proof.
  intros Hplain Hlen.
  pose proof (Decimal_new_plain parseOther sg ip frac Hplain) as Hnew.
  pose proof (parseDecimal_plain (DecimalJs.signValue sg) ip
                (DecimalJs.fracOf frac) Hlen) as [_ Hdp].
  rewrite <- Hdp.
  apply (@decimal_places_iff (decimal_js parseOther)); [reflexivity|exact Hnew].
Qed.

Lemma decimal_places_of_plain_text_witness :
  ~ In EXCEEDED_MAX_NUMBER_OF_DECIMAL_PLACES
      (violations
         (@match_ decimal_js_nonfinite
            (JsString
               (DecimalJs.plainText DecimalJs.NoSign
                  ["7"]%char (Some ["5"; "0"; "0"]%char)))
            (heapOf [9; 1] []))).
Proof.
  intros Hin.
  apply (decimal_places_of_plain_text DecimalJs.parseOther_nonfinite
           DecimalJs.NoSign ["7"]%char (Some ["5"; "0"; "0"]%char)
           (heapOf [9; 1] []) eq_refl) in Hin.
  - destruct Hin as [_ Hgt]. discriminate Hgt.
  - vm_compute. discriminate.
Defined.

(** Worked examples: eleven digits pass the default limit and
    twelve do not; "1234" passes the limit 4 and "12345" does not; under
    (4, 2) the value "12.34" passes; under (6, 2) the value "1.234" breaks
    the decimal-places bound only. *)
Theorem worked_examples :
  let run (ps : list Z) (text : string) :=
    violations (@match_ decimal_js_nonfinite (JsString text) (heapOf ps []))
  in
  run [] "12345678901"%string = [] /\
  run [] "123456789012"%string = [EXCEEDED_MAX_NUMBER_OF_DIGITS] /\
  run [4] "1234"%string = [] /\
  run [4] "12345"%string = [EXCEEDED_MAX_NUMBER_OF_DIGITS] /\
  run [4; 2] "12.34"%string = [] /\
  run [6; 2] "1.234"%string = [EXCEEDED_MAX_NUMBER_OF_DECIMAL_PLACES] /\
  run [3; 1] "abc"%string = [NOT_VALID].
Proof. cbv zeta. repeat split; reflexivity. Qed.

(** ** What is reported, and when nothing is *)

Lemma js_gt_undefined (a : option JsNum) : js_gt a None = false.
Proof. by destruct a as [[|x]|]. Qed.

(** A comparison that holds against a bound holds against a smaller one. *)
Lemma js_gt_mono (a : option JsNum) (y y' : Z) :
  y <= y' ->
  js_gt a (Some (Num y')) = true -> js_gt a (Some (Num y)) = true.
Proof.
  destruct a as [[|x]|]; cbn; try done.
  intros Hle Hgt. apply Z.ltb_lt in Hgt. apply Z.ltb_lt. lia.
Qed.

(** X2.  For a non-null value, NOT_VALID is reported if and only if the
    matcher has at most two parameters and the constructor rejects the
    value: a value that parses is never reported as not valid. *)
Theorem not_valid_iff (L : DecimalLib) (value : JsValue) (h : Heap) :
  isNotNull value = true ->
  In NOT_VALID (violations (match_ value h)) <->
  (length (params (this h)) <= 2)%nat /\ Decimal_new value = None.
Proof.
  intros Hv. rewrite violations_match.
  destruct (le_lt_dec (length (params (this h))) 2) as [Hle|Hgt].
  - rewrite (returns_true _ _ Hv Hle). unfold verdict.
    destruct (Decimal_new value) as [number|].
    + split; [|by intros [_ ?]].
      intros Hin. apply in_app_or in Hin as [Hin|Hin].
      * destruct (js_gt _ _); [|done]. destruct Hin as [Heq|[]].
        discriminate Heq.
      * destruct (_ && _); [|done]. destruct Hin as [Heq|[]].
        discriminate Heq.
    + split; [by intros _|intros _; by left].
  - rewrite (returns_false_arity _ _ Hgt).
    split; [intros []|intros [? _]; lia].
Qed.

Lemma not_valid_iff_witness :
  In NOT_VALID
     (violations
        (@match_ decimal_js_nonfinite (JsString "1,5") (heapOf [4; 2] [])))
  /\
  ~ In NOT_VALID
      (violations
         (@match_ decimal_js_nonfinite (JsString "1.5") (heapOf [4; 2] []))).
Proof.
  split.
  - apply <- (not_valid_iff decimal_js_nonfinite
                (JsString "1,5") (heapOf [4; 2] []) eq_refl).
    split; [cbn; lia|reflexivity].
  - intros Hin.
    apply (not_valid_iff decimal_js_nonfinite
             (JsString "1.5") (heapOf [4; 2] []) eq_refl) in Hin.
    destruct Hin as [_ Hnew]. discriminate Hnew.
Defined.

(** X3.  With at most two parameters, a non-null value passes (the
    outcome holds no violation) if and only if it parses, its
    [precision(true)] does not exceed the applicable maximum and, when
    there are two parameters, its [decimalPlaces()] does not exceed the
    second. *)
Theorem passes_iff (L : DecimalLib) (value : JsValue) (h : Heap) :
  isNotNull value = true ->
  (length (params (this h)) <= 2)%nat ->
  outcome (match_ value h) = Some {| errors := [] |} <->
  exists number,
    Decimal_new value = Some number /\
    js_gt (Some (precision number true))
          (maxTotalDigits (params (this h))) = false /\
    (length (params (this h)) = 2%nat ->
     js_gt (Some (decimalPlaces number))
           (js_index (params (this h)) 1) = false).
Proof.
  intros Hv Hle. rewrite outcome_match, (returns_true _ _ Hv Hle).
  unfold verdict. destruct (Decimal_new value) as [number|].
  - destruct (js_gt (Some (precision number true)) _) eqn:Hprec.
    { split; [intros [=]|]. intros (n & [= <-] & Hn & _). congruence. }
    destruct (Nat.eqb_spec (length (params (this h))) 2) as [Heq|Hne];
      cbn [andb app].
    + destruct (js_gt (Some (decimalPlaces number)) _) eqn:Hdp.
      * split; [intros [=]|]. intros (n & [= <-] & _ & Hn).
        specialize (Hn Heq). congruence.
      * split; [intros _; by exists number|done].
    + split; [intros _; by exists number|done].
  - split; [intros [=]|]. by intros (n & [=] & _).
Qed.

Lemma passes_iff_witness :
  outcome (@match_ decimal_js_nonfinite (JsString "-12.340") (heapOf [4; 2] []))
  = Some {| errors := [] |}.
Proof.
  apply <- (passes_iff decimal_js_nonfinite
              (JsString "-12.340") (heapOf [4; 2] []) eq_refl).
  - eexists. split; [reflexivity|]. split; [reflexivity|].
    intros _. reflexivity.
  - cbn. lia.
Defined.

(** X4.  One call reports no violation twice, and never more than two
    violations. *)
Theorem violations_no_duplicates
    (L : DecimalLib) (value : JsValue) (h : Heap) :
  List.NoDup (violations (match_ value h)) /\
  (length (violations (match_ value h)) <= 2)%nat.
Proof.
  rewrite violations_match. unfold verdict.
  destruct (returns _ _); [|split; [constructor|cbn; lia]].
  destruct (Decimal_new value) as [number|].
  - destruct (js_gt (Some (precision number true)) _), (_ && _);
      (split; [|cbn; lia]); repeat constructor; cbn; intuition discriminate.
  - split; [|cbn; lia]. repeat constructor. cbn. tauto.
Qed.

(** X5.  Raising the limits never adds a violation: if the parameters
    [ps'] are pointwise at least [ps], every violation reported under
    [ps'] is reported under [ps] too; so a value that passes under [ps]
    passes under [ps']. *)
Theorem raising_limits_keeps_valid
    (L : DecimalLib) (value : JsValue) (ps ps' : list Z)
    (objs objs' : list ValidationResult) :
  Forall2 Z.le ps ps' ->
  incl (violations (match_ value (heapOf ps' objs')))
       (violations (match_ value (heapOf ps objs))).
Proof.
  intros Hle. rewrite !violations_match.
  cbn [heapOf this constructor params]. unfold returns.
  rewrite <- (Forall2_length _ _ _ Hle).
  destruct (isNotNull value && _); [|apply incl_refl].
  unfold verdict. rewrite <- (Forall2_length _ _ _ Hle).
  destruct (Decimal_new value) as [number|]; [|apply incl_refl].
  intros v Hin. apply in_app_or in Hin as [Hin|Hin]; apply in_or_app.
  - left. destruct (js_gt _ (maxTotalDigits ps')) eqn:Hgt; [|done].
    destruct Hle as [|p0 p0' qs qs' H0 Hle]; [by rewrite Hgt|].
    cbn [maxTotalDigits] in *. by rewrite (js_gt_mono _ _ _ H0 Hgt).
  - right. destruct (Nat.eqb (length ps) 2); [|done]. cbn [andb] in *.
    destruct (js_gt _ (js_index ps' 1)) eqn:Hgt; [|done].
    destruct Hle as [|p0 p0' qs qs' H0 [|p1 p1' rs rs' H1 Hle]];
      try (by rewrite js_gt_undefined in Hgt).
    change (js_index (p0' :: p1' :: rs') 1) with (Some (Num p1')) in Hgt.
    change (js_index (p0 :: p1 :: rs) 1) with (Some (Num p1)).
    by rewrite (js_gt_mono _ _ _ H1 Hgt).
Qed.

Lemma raising_limits_keeps_valid_witness :
  incl
    (violations
       (@match_ decimal_js_nonfinite (JsString "12.345") (heapOf [5; 2] [])))
    (violations
       (@match_ decimal_js_nonfinite (JsString "12.345") (heapOf [4; 2] []))).
Proof.
  apply (raising_limits_keeps_valid decimal_js_nonfinite
           (JsString "12.345") [4; 2] [5; 2] [] []).
  repeat constructor; lia.
Defined.

(** X6.  A second parameter only adds the decimal-places check: the
    violations under [(p0, p1)] are those under [(p0)], followed or not by
    EXCEEDED_MAX_NUMBER_OF_DECIMAL_PLACES. *)
Theorem second_parameter_adds_decimal_places
    (L : DecimalLib) (value : JsValue) (p0 p1 : Z)
    (objs objs' : list ValidationResult) :
  exists b : bool,
    violations (match_ value (heapOf [p0; p1] objs)) =
    violations (match_ value (heapOf [p0] objs')) ++
    (if b then [EXCEEDED_MAX_NUMBER_OF_DECIMAL_PLACES] else []).
Proof.
  rewrite !violations_match. cbn [heapOf this constructor params].
  unfold returns, verdict. cbn [length Nat.leb Nat.eqb andb maxTotalDigits].
  destruct (isNotNull value); cbn [andb]; [|by exists false].
  destruct (Decimal_new value) as [number|]; [|by exists false].
  exists (js_gt (Some (decimalPlaces number)) (js_index [p0; p1] 1)).
  by rewrite app_nil_r.
Qed.

(** X7.  A parsed number whose [precision(true)] and [decimalPlaces()]
    are NaN, as decimal.js gives them for Infinity and NaN, is never
    reported, whatever the parameters. *)
Theorem non_finite_number_passes
    (L : DecimalLib) (value : JsValue) (h : Heap) (number : Decimal) :
  Decimal_new value = Some number ->
  precision number true = NaN ->
  decimalPlaces number = NaN ->
  violations (match_ value h) = [].
Proof.
  intros Hnew Hprec Hdp. rewrite violations_match.
  destruct (returns _ _); [|done].
  unfold verdict. rewrite Hnew, Hprec, Hdp. cbn [js_gt].
  by rewrite andb_false_r.
Qed.

Lemma non_finite_number_passes_witness :
  violations
    (@match_ decimal_js_nonfinite (JsString "-Infinity") (heapOf [0; 0] []))
  = [].
Proof.
  apply (non_finite_number_passes decimal_js_nonfinite
           (JsString "-Infinity") (heapOf [0; 0] []) _ eq_refl);
    reflexivity.
Defined.

(** ** The methods on an accumulator of the caller *)

Section AccumulatorFacts.

Context {L : DecimalLib}.

Lemma alter_as_insert {A} (f : A -> A) (l : list A) (i : nat) (x : A) :
  l !! i = Some x -> alter f i l = <[i := f x]> l.
Proof.
  revert i. induction l as [|y l IH]; intros [|i] Hx; try done.
  - by injection Hx as ->.
  - cbn. f_equal. by apply IH.
Qed.

Lemma extend_nil acc : extend acc [] = acc.
Proof. destruct acc. unfold extend; cbn. by rewrite app_nil_r. Qed.

Lemma extend_extend acc vs ws : extend (extend acc vs) ws = extend acc (vs ++ ws).
Proof. unfold extend; cbn. by rewrite app_assoc. Qed.

Lemma store_same r acc h : results h !! r = Some acc -> store r acc h = h.
Proof.
  intros Hr. destruct h as [t objs]. unfold store; cbn in *.
  by rewrite list_insert_id.
Qed.

Lemma store_store r acc acc' h : store r acc' (store r acc h) = store r acc' h.
Proof. unfold store; cbn. by rewrite list_insert_insert_eq. Qed.

Lemma lookup_store r acc acc' h :
  results h !! r = Some acc -> results (store r acc' h) !! r = Some acc'.
Proof.
  intros Hr. unfold store; cbn. apply list_lookup_insert_eq.
  by apply lookup_lt_Some in Hr.
Qed.

Lemma addInvalidTypeError_at v r acc h :
  results h !! r = Some acc ->
  addInvalidTypeError r (CODE v) (MESSAGE v) h = (tt, store r (extend acc [v]) h).
Proof.
  intros Hr. unfold addInvalidTypeError, store.
  rewrite (alter_as_insert _ _ _ _ Hr). by destruct v.
Qed.

Lemma convertToDecimal_at value r acc h :
  results h !! r = Some acc ->
  convertToDecimal value r h =
  (Decimal_new value,
   store r (extend acc (if Decimal_new value is Some _ then [] else [NOT_VALID]))
     h).
Proof.
  intros Hr. unfold convertToDecimal. destruct (Decimal_new value).
  - by rewrite extend_nil, store_same.
  - unfold mbind, Js_bind. by rewrite (addInvalidTypeError_at _ _ _ _ Hr).
Qed.

Lemma validateMaxNumberOfDigits_at number bound r acc h :
  results h !! r = Some acc ->
  validateMaxNumberOfDigits number bound r h =
  (tt, store r
         (extend acc (if isExceededMaxNumberOfDigits number bound
                      then [EXCEEDED_MAX_NUMBER_OF_DIGITS] else [])) h).
Proof.
  intros Hr. unfold validateMaxNumberOfDigits.
  destruct (isExceededMaxNumberOfDigits number bound).
  - by apply addInvalidTypeError_at.
  - by rewrite extend_nil, store_same.
Qed.

Lemma validateMaxNumberOfDecimalPlaces_at number r acc h :
  results h !! r = Some acc ->
  validateMaxNumberOfDecimalPlaces number r h =
  (tt, store r
         (extend acc
            (if js_gt (decimalPlaces <$> number) (js_index (params (this h)) 1)
             then [EXCEEDED_MAX_NUMBER_OF_DECIMAL_PLACES] else [])) h).
Proof.
  intros Hr. unfold validateMaxNumberOfDecimalPlaces, mbind, Js_bind.
  rewrite isExceededMaxNumberOfDecimalPlaces_run.
  destruct (js_gt _ _).
  - by apply addInvalidTypeError_at.
  - by rewrite extend_nil, store_same.
Qed.

End AccumulatorFacts.

(** X8.  Each of the three [process...Input] methods, called on a matcher
    with the number of parameters it is written for and on an accumulator
    that already holds violations, returns that accumulator with the
    violations of this value appended after the ones it held; no other
    object and nothing of the matcher changes. *)
Theorem process_methods_append
    (L : DecimalLib) (value : JsValue) (r : Ref) (acc : ValidationResult)
    (h : Heap) :
  results h !! r = Some acc ->
  (length (params (this h)) = 0%nat ->
   processNoParamInput value r h =
   (r, store r (extend acc (verdict (params (this h)) value)) h)) /\
  (length (params (this h)) = 1%nat ->
   processOneParamInput value r h =
   (r, store r (extend acc (verdict (params (this h)) value)) h)) /\
  (length (params (this h)) = 2%nat ->
   processTwoParamsInput value r h =
   (r, store r (extend acc (verdict (params (this h)) value)) h)).
Proof.
  intros Hr.
  pose proof (convertToDecimal_at value r acc h Hr) as Hconv.
  set (acc1 := extend acc _) in Hconv.
  pose proof (lookup_store r acc acc1 h Hr) as Hr1.
  split; [|split]; intros Hlen.
  - unfold processNoParamInput, mbind, Js_bind. rewrite Hconv.
    rewrite (validateMaxNumberOfDigits_at _ _ _ _ _ Hr1), store_store.
    unfold acc1. rewrite extend_extend. unfold verdict, mret, Js_ret.
    destruct (params (this h)); [|done].
    unfold isExceededMaxNumberOfDigits.
    destruct (Decimal_new value); cbn - [js_gt]; [|done].
    by rewrite app_nil_r.
  - unfold processOneParamInput, mbind, Js_bind. rewrite Hconv.
    unfold this_params.
    rewrite (validateMaxNumberOfDigits_at _ _ _ _ _ Hr1), store_store.
    unfold acc1. rewrite extend_extend. unfold verdict, mret, Js_ret.
    cbn [store this].
    destruct (params (this h)) as [|p0 [|p1 ps]]; try done.
    unfold isExceededMaxNumberOfDigits.
    destruct (Decimal_new value); cbn - [js_gt]; [|done].
    by rewrite app_nil_r.
  - unfold processTwoParamsInput, mbind, Js_bind. rewrite Hconv.
    unfold this_params.
    rewrite (validateMaxNumberOfDigits_at _ _ _ _ _ Hr1), store_store.
    set (acc2 := extend acc1 _).
    pose proof (lookup_store r acc acc2 h Hr) as Hr2.
    rewrite (validateMaxNumberOfDecimalPlaces_at _ _ _ _ Hr2), store_store.
    unfold acc2, acc1. rewrite !extend_extend. unfold verdict, mret, Js_ret.
    cbn [store this].
    destruct (params (this h)) as [|p0 [|p1 [|p2 ps]]]; try done.
    unfold isExceededMaxNumberOfDigits.
    destruct (Decimal_new value); cbn - [js_gt]; done.
Qed.

Lemma process_methods_append_witness :
  @processTwoParamsInput decimal_js_nonfinite (JsString "12.34") 0%nat
    (heapOf [3; 1] [ {| errors := [NOT_VALID] |} ])
  = (0%nat,
     heapOf [3; 1]
       [ {| errors := [NOT_VALID; EXCEEDED_MAX_NUMBER_OF_DIGITS;
                       EXCEEDED_MAX_NUMBER_OF_DECIMAL_PLACES] |} ]).
Proof.
  exact (proj2 (proj2
    (process_methods_append decimal_js_nonfinite (JsString "12.34") 0%nat
       {| errors := [NOT_VALID] |}
       (heapOf [3; 1] [ {| errors := [NOT_VALID] |} ]) eq_refl)) eq_refl).
Defined.

(** X9.  Called on a matcher that lacks the parameter they read, the
    checks compare with [undefined] and never fire:
    [processTwoParamsInput] on fewer than two parameters does what
    [processOneParamInput] does, and [processOneParamInput] on no
    parameter only converts the value, without the default limit that
    [processNoParamInput] applies. *)
Theorem missing_parameter_skips_check
    (L : DecimalLib) (value : JsValue) (r : Ref) (h : Heap) :
  ((length (params (this h)) < 2)%nat ->
   processTwoParamsInput value r h = processOneParamInput value r h) /\
  (length (params (this h)) = 0%nat ->
   processOneParamInput value r h = (r, (convertToDecimal value r h).2)).
Proof.
  split; intros Hlen.
  - unfold processTwoParamsInput, processOneParamInput, mbind, Js_bind.
    destruct (convertToDecimal value r h) as [number h1] eqn:Hconv.
    assert (Hthis : this h1 = this h).
    { unfold convertToDecimal in Hconv.
      destruct (Decimal_new value); [by injection Hconv as _ <-|].
      by injection Hconv as _ <-. }
    unfold this_params.
    destruct (validateMaxNumberOfDigits _ _ _ h1) as [[] h2] eqn:Hdig.
    assert (Hthis2 : this h2 = this h1).
    { unfold validateMaxNumberOfDigits in Hdig.
      destruct (isExceededMaxNumberOfDigits _ _);
        by injection Hdig as <-. }
    unfold validateMaxNumberOfDecimalPlaces, mbind, Js_bind.
    rewrite isExceededMaxNumberOfDecimalPlaces_run, Hthis2, Hthis.
    destruct (params (this h)) as [|p0 [|p1 ps]]; cbn [length] in Hlen;
      try lia; by rewrite js_gt_undefined.
  - unfold processOneParamInput, mbind, Js_bind.
    destruct (convertToDecimal value r h) as [number h1] eqn:Hconv.
    assert (Hthis : this h1 = this h).
    { unfold convertToDecimal in Hconv.
      destruct (Decimal_new value); [by injection Hconv as _ <-|].
      by injection Hconv as _ <-. }
    unfold this_params, validateMaxNumberOfDigits,
      isExceededMaxNumberOfDigits.
    rewrite Hthis. destruct (params (this h)); [|done].
    by rewrite js_gt_undefined.
Qed.

Lemma missing_parameter_skips_check_witness :
  @processTwoParamsInput decimal_js_nonfinite (JsString "1.234") 0%nat
    (heapOf [6] [ValidationResult_new])
  = @processOneParamInput decimal_js_nonfinite (JsString "1.234") 0%nat
      (heapOf [6] [ValidationResult_new])
  /\
  @processOneParamInput decimal_js_nonfinite (JsString "123456789012") 0%nat
    (heapOf [] [ValidationResult_new])
  = (0%nat, heapOf [] [ValidationResult_new]).
Proof.
  split.
  - apply (proj1 (missing_parameter_skips_check decimal_js_nonfinite
                    (JsString "1.234") 0%nat
                    (heapOf [6] [ValidationResult_new]))).
    cbn. lia.
  - apply (proj2 (missing_parameter_skips_check decimal_js_nonfinite
                    (JsString "123456789012") 0%nat
                    (heapOf [] [ValidationResult_new]))).
    reflexivity.
Defined.

(** X10.  The outcome of [match] depends on the matcher and the value
    only: on two heaps that hold the same matcher, whatever other objects
    they hold, the outcomes are the same. *)
Theorem match_ignores_other_objects
    (L : DecimalLib) (value : JsValue) (h1 h2 : Heap) :
  this h1 = this h2 ->
  outcome (match_ value h1) = outcome (match_ value h2) /\
  this (match_ value h1).2 = this (match_ value h2).2.
Proof.
  intros Hthis. rewrite !outcome_match, !match_run, Hthis.
  by destruct (returns _ _).
Qed.

Lemma match_ignores_other_objects_witness :
  outcome
    (@match_ decimal_js_nonfinite (JsString "12.34")
       (heapOf [3; 1] [ {| errors := [NOT_VALID] |} ]))
  = outcome
      (@match_ decimal_js_nonfinite (JsString "12.34") (heapOf [3; 1] [])).
Proof.
  apply (match_ignores_other_objects decimal_js_nonfinite
           (JsString "12.34")
           (heapOf [3; 1] [ {| errors := [NOT_VALID] |} ])
           (heapOf [3; 1] [])).
  reflexivity.
Defined.

(** X11.  Two successive calls that return an object return different
    objects: the second accumulator is allocated right after the first,
    so outcomes of different calls never share storage. *)
Theorem successive_calls_fresh_objects
    (L : DecimalLib) (value1 value2 : JsValue) (h : Heap) :
  let first := match_ value1 h in
  let second := match_ value2 first.2 in
  length (results second.2) = S (S (length (results h))) /\
  (forall r1 r2,
      first.1 = Some r1 -> second.1 = Some r2 -> r2 = S r1).
Proof.
  cbn zeta. rewrite !match_run.
  destruct (returns (params (this h)) value1);
    cbn [fst snd midCall this results];
    destruct (returns (params (this h)) value2);
    cbn [fst snd midCall this results];
    rewrite !length_app; cbn [length]; (split; [lia|]);
    intros r1 r2 [= <-] [= <-]; rewrite ?length_app; cbn [length]; lia.
Qed.

Lemma successive_calls_fresh_objects_witness :
  (@match_ decimal_js_nonfinite (JsString "1") (heapOf [] [])).1
  = Some 0%nat /\
  (@match_ decimal_js_nonfinite (JsString "2")
     (@match_ decimal_js_nonfinite (JsString "1") (heapOf [] [])).2).1
  = Some 1%nat /\
  1%nat = S 0.
Proof.
  split; [reflexivity|split; [reflexivity|]].
  apply (proj2 (successive_calls_fresh_objects decimal_js_nonfinite
                  (JsString "1") (JsString "2") (heapOf [] [])));
    reflexivity.
Defined.

(** ** decimal.js: the sign of a literal *)

Section SignFacts.

Import DecimalJs.

(** The digits and the exponent of a parsed literal do not depend on the
    sign it is given. *)
Lemma parseDecimal_sign (s1 s2 : Z) (lit : Literal) :
  d (parseDecimal s1 lit) = d (parseDecimal s2 lit) /\
  e (parseDecimal s1 lit) = e (parseDecimal s2 lit).
Proof.
  unfold parseDecimal.
  destruct (stripTrailingZeros _); [done|].
  by repeat destruct (_ <? _).
Qed.

Lemma precision_sign (s1 s2 : Z) (lit : Literal) (z : bool) :
  precision (parseDecimal s1 lit) z = precision (parseDecimal s2 lit) z.
Proof.
  unfold precision.
  by destruct (parseDecimal_sign s1 s2 lit) as [-> ->].
Qed.

Lemma decimalPlaces_sign (s1 s2 : Z) (lit : Literal) :
  decimalPlaces (parseDecimal s1 lit) = decimalPlaces (parseDecimal s2 lit).
Proof.
  unfold decimalPlaces.
  by destruct (parseDecimal_sign s1 s2 lit) as [-> ->].
Qed.

(** A decimal literal starts with a digit or the point, not with a sign. *)
Lemma matchDecimal_head (c : ascii) (t : list ascii) (lit : Literal) :
  matchDecimal (c :: t) = Some lit ->
  Ascii.eqb c "-" = false /\ Ascii.eqb c "+" = false.
Proof.
  unfold matchDecimal. cbn [spanDigits].
  destruct (isDigit c) eqn:Hc.
  - intros _. by destruct (isDigit_not_mark c Hc) as (? & ? & _).
  - destruct (Ascii.eqb_spec c ".") as [->|Hne]; [done|].
    discriminate.
Qed.

Lemma Decimal_new_unsigned parseOther (body : string) (lit : Literal) :
  matchDecimal (list_ascii_of_string body) = Some lit ->
  Decimal_new parseOther (JsString body) = Some (parseDecimal 1 lit).
Proof.
  intros Hlit. unfold Decimal_new.
  destruct (list_ascii_of_string body) as [|c t] eqn:Hbody;
    [discriminate Hlit|].
  destruct (matchDecimal_head c t lit Hlit) as [-> ->].
  by rewrite Hlit.
Qed.

Lemma Decimal_new_signed parseOther (body : string) (lit : Literal) :
  matchDecimal (list_ascii_of_string body) = Some lit ->
  Decimal_new parseOther (JsString (String "-" body))
    = Some (parseDecimal (-1) lit) /\
  Decimal_new parseOther (JsString (String "+" body))
    = Some (parseDecimal 1 lit).
Proof.
  intros Hlit. unfold Decimal_new.
  cbn [list_ascii_of_string Ascii.eqb Bool.eqb]. by rewrite Hlit.
Qed.

End SignFacts.

(** X12.  Under decimal.js the sign of a decimal literal, exponent
    notation included, is not validated and not counted: the text with a
    minus or a plus sign in front gets the same violations as the
    literal itself. *)
Theorem sign_does_not_change_violations
    (parseOther : Z -> string -> option DecimalJs.Decimal)
    (body : string) (lit : DecimalJs.Literal) (h : Heap) :
  DecimalJs.matchDecimal (list_ascii_of_string body) = Some lit ->
  violations (@match_ (decimal_js parseOther) (JsString (String "-" body)) h)
  = violations (@match_ (decimal_js parseOther) (JsString body) h) /\
  violations (@match_ (decimal_js parseOther) (JsString (String "+" body)) h)
  = violations (@match_ (decimal_js parseOther) (JsString body) h).
Proof.
  intros Hlit. rewrite !violations_match. unfold returns, verdict.
  cbn [isNotNull Decimal_new precision decimalPlaces decimal_js].
  destruct (Decimal_new_signed parseOther body lit Hlit) as [-> ->].
  rewrite (Decimal_new_unsigned parseOther body lit Hlit).
  by rewrite (precision_sign (-1) 1), (decimalPlaces_sign (-1) 1).
Qed.

Lemma sign_does_not_change_violations_witness :
  violations
    (@match_ decimal_js_nonfinite (JsString "-1.5e3") (heapOf [3; 1] []))
  = violations
      (@match_ decimal_js_nonfinite (JsString "1.5e3") (heapOf [3; 1] [])).
Proof.
  apply (sign_does_not_change_violations DecimalJs.parseOther_nonfinite
           "1.5e3" _ (heapOf [3; 1] []) eq_refl).
Defined.

(** ** decimal.js: a whole number with an exponent *)

Section ExponentFacts.

Import DecimalJs.

(** For digits [ip] that are not all zero and an exponent [ex >= 0], the
    value [ip e ex] has the digits of [ip] from the first non-zero one on
    and [ex] more, and no decimal place. *)
Lemma parseDecimal_whole (sign : Z) (ip : list ascii) (ex : Z) :
  stripLeadingZeros ip <> [] ->
  0 <= ex ->
  Z.of_nat (length ip) + ex <= EXP_LIMIT ->
  let x := parseDecimal sign
             {| intDigits := ip; fracDigits := []; exponent := ex |} in
  precision x true = Num (Z.of_nat (length (stripLeadingZeros ip)) + ex) /\
  decimalPlaces x = Num 0.
Proof.
  intros Hne Hex Hlen. unfold parseDecimal.
  cbn [intDigits fracDigits exponent]. rewrite app_nil_r.
  pose proof (length_stripLeadingZeros ip) as Hip.
  pose proof (length_stripTrailingZeros (stripLeadingZeros ip)) as Hcore.
  destruct (stripLeadingZeros ip) as [|c ip'] eqn:Eip; [done|].
  pose proof (stripLeadingZeros_head ip c ip' Eip) as Hc.
  pose proof (stripTrailingZeros_nonzero_head c ip' Hc) as Hcore'.
  destruct (stripTrailingZeros (c :: ip')) as [|c1 ds]; [done|].
  cbn [length] in *.
  destruct (Z.ltb_spec maxE
              (Z.of_nat (length ip) + ex -
               (Z.of_nat (length ip) - Z.of_nat (S (length ip'))) - 1));
    [unfold maxE in *; lia|].
  destruct (Z.ltb_spec
              (Z.of_nat (length ip) + ex -
               (Z.of_nat (length ip) - Z.of_nat (S (length ip'))) - 1)
              minE);
    [unfold minE, EXP_LIMIT in *; lia|].
  unfold precision, decimalPlaces, getPrecision. cbn [d e andb].
  rewrite length_fmap. cbn [length].
  split; [|f_equal; lia].
  match goal with
  | |- context [?a <? ?b] => destruct (Z.ltb_spec a b)
  end; f_equal; lia.
Qed.

End ExponentFacts.

(** X13.  Under decimal.js a whole number written with an exponent is
    counted as written out: for digits [ip], not all zero, and an
    exponent [ex >= 0], the text [ip e ex] is reported for its digits
    exactly when the digits of [ip] from the first non-zero one on, plus
    [ex], exceed the applicable maximum (so "1e12" breaks the default
    limit), and it is checked as a value with zero decimal places. *)
Theorem exponent_counts_as_digits
    (parseOther : Z -> string -> option DecimalJs.Decimal)
    (body : string) (ip : list ascii) (ex : Z) (h : Heap) :
  DecimalJs.matchDecimal (list_ascii_of_string body)
    = Some {| DecimalJs.intDigits := ip; DecimalJs.fracDigits := [];
              DecimalJs.exponent := ex |} ->
  DecimalJs.stripLeadingZeros ip <> [] ->
  0 <= ex ->
  Z.of_nat (length ip) + ex <= DecimalJs.EXP_LIMIT ->
  (In EXCEEDED_MAX_NUMBER_OF_DIGITS
      (violations (@match_ (decimal_js parseOther) (JsString body) h)) <->
   (length (params (this h)) <= 2)%nat /\
   js_gt (Some (Num (Z.of_nat (length (DecimalJs.stripLeadingZeros ip)) + ex)))
         (maxTotalDigits (params (this h))) = true) /\
  (In EXCEEDED_MAX_NUMBER_OF_DECIMAL_PLACES
      (violations (@match_ (decimal_js parseOther) (JsString body) h)) <->
   length (params (this h)) = 2%nat /\
   js_gt (Some (Num 0)) (js_index (params (this h)) 1) = true).
Proof.
  intros Hlit Hne Hex Hlen.
  pose proof (Decimal_new_unsigned parseOther body _ Hlit) as Hnew.
  pose proof (parseDecimal_whole 1 ip ex Hne Hex Hlen) as [Hprec Hdp].
  split.
  - rewrite <- Hprec.
    apply (@total_digits_iff (decimal_js parseOther)); [reflexivity|exact Hnew].
  - rewrite <- Hdp.
    apply (@decimal_places_iff (decimal_js parseOther)); [reflexivity|exact Hnew].
Qed.

Lemma exponent_counts_as_digits_witness :
  In EXCEEDED_MAX_NUMBER_OF_DIGITS
     (violations (@match_ decimal_js_nonfinite (JsString "1e12") (heapOf [] [])))
  /\
  ~ In EXCEEDED_MAX_NUMBER_OF_DECIMAL_PLACES
      (violations
         (@match_ decimal_js_nonfinite (JsString "1e12") (heapOf [20; 0] []))).
Proof.
  assert (Hne : DecimalJs.stripLeadingZeros ["1"]%char <> []) by discriminate.
  assert (Hex : 0 <= 12) by lia.
  assert (Hlen : Z.of_nat (length ["1"]%char) + 12 <= DecimalJs.EXP_LIMIT)
    by (vm_compute; discriminate).
  split.
  - apply <- (proj1 (exponent_counts_as_digits DecimalJs.parseOther_nonfinite
                       "1e12" ["1"]%char 12 (heapOf [] []) eq_refl
                       Hne Hex Hlen)).
    split; [cbn; lia|reflexivity].
  - intros Hin.
    apply (proj2 (exponent_counts_as_digits DecimalJs.parseOther_nonfinite
                    "1e12" ["1"]%char 12 (heapOf [20; 0] []) eq_refl
                    Hne Hex Hlen)) in Hin.
    destruct Hin as [_ Hgt]. discriminate Hgt.
Defined.
